(** * data_cleaning_module.py: outlier filters and the model comparer

    Shallow embedding of [OutlierStdRemove], [OutlierIQRRemove] and
    [ModelComparer] of [data_cleaning_module.py].

    Modelling choices.
    - A float cell is [fv]: either [NaN] or a finite number [Num r] with
      [r : R].  Arithmetic is exact real arithmetic (no rounding, no
      infinities); NaN propagates through [fadd], [fsub], [fmul] and makes
      every comparison false, as in IEEE-754 / numpy.
    - A pandas DataFrame is a [table]: its column labels and its rows in
      order; a row carries its index label [rid] and its cells.
    - A pandas Series of labels ([y]) is an association list from index
      labels to values, in order, duplicates allowed (as in pandas).
    - Exceptions are the [Err] branch of the [result] monad.
    - Monitored column names are taken distinct (with a repeated name pandas
      builds Series-valued entries in [bounds_]; that case is not modelled). *)

From Stdlib Require Import Reals Lra List String QArith Bool Arith Lia
  Permutation Sorted Qround ZArith Qreals.
Import ListNotations.
Local Open Scope R_scope.

(* ------------------------------------------------------------------ *)
(** ** Float cells *)

Inductive fv : Type :=
| NaN : fv
| Num : R -> fv.

Definition Rleb (a b : R) : bool := if Rle_dec a b then true else false.

Definition fadd (a b : fv) : fv :=
  match a, b with Num x, Num y => Num (x + y) | _, _ => NaN end.
Definition fsub (a b : fv) : fv :=
  match a, b with Num x, Num y => Num (x - y) | _, _ => NaN end.
Definition fmul (a b : fv) : fv :=
  match a, b with Num x, Num y => Num (x * y) | _, _ => NaN end.

(** [a >= b] and [a <= b] on float64: false as soon as one side is NaN. *)
Definition fge (a b : fv) : bool :=
  match a, b with Num x, Num y => Rleb y x | _, _ => false end.
Definition fle (a b : fv) : bool :=
  match a, b with Num x, Num y => Rleb x y | _, _ => false end.

Definition is_nan (a : fv) : bool := match a with NaN => true | Num _ => false end.

(* ------------------------------------------------------------------ *)
(** ** Exceptions *)

Inductive err : Type :=
| KeyError : string -> err      (** missing column, dict key or index label *)
| IndexError : err              (** positional index out of range *)
| ValueError : err              (** inconsistent sample numbers in a split *)
| ModelError : err.             (** raised by the external model *)

Inductive result (A : Type) : Type :=
| Ok : A -> result A
| Err : err -> result A.
Arguments Ok {A} _.
Arguments Err {A} _.

Definition bind {A B} (m : result A) (k : A -> result B) : result B :=
  match m with Ok a => k a | Err e => Err e end.

Notation "x <- m ;; k" := (bind m (fun x => k))
  (at level 61, m at next level, right associativity).
Notation "' p <- m ;; k" := (bind m (fun x => match x with p => k end))
  (at level 61, p pattern, m at next level, right associativity).

(* ------------------------------------------------------------------ *)
(** ** DataFrames *)

Record row : Type := mkrow { rid : nat ; rval : string -> fv }.

Record table : Type := mktable { tcols : list string ; trows : list row }.

Definition has_col (X : table) (c : string) : bool :=
  existsb (String.eqb c) (tcols X).

(** [X.index] *)
Definition index (X : table) : list nat := map rid (trows X).

(** [len(X)] *)
Definition len (X : table) : nat := List.length (trows X).

(** [X.copy()]: at the level of values a copy is the same frame. *)
Definition copy (X : table) : table := X.

(** [X[col]]: the column as a Series, or [KeyError]. *)
Definition column (X : table) (c : string) : result (list fv) :=
  if has_col X c then Ok (map (fun r => rval r c) (trows X)) else Err (KeyError c).

(** [X[cols]] for a list of labels: the sub-frame, one Series per label. *)
Fixpoint subset (X : table) (cols : list string) : result (list (string * list fv)) :=
  match cols with
  | [] => Ok []
  | c :: cs => v <- column X c ;; rest <- subset X cs ;; Ok ((c, v) :: rest)
  end.

(** [X[mask]] where [mask] is a boolean predicate on the rows. *)
Definition select (X : table) (mask : row -> bool) : table :=
  mktable (tcols X) (filter mask (trows X)).

(* ------------------------------------------------------------------ *)
(** ** Column statistics (pandas, [skipna=True]) *)

(** the non-NaN entries of a Series, in order *)
Fixpoint nums (vs : list fv) : list R :=
  match vs with
  | [] => []
  | NaN :: vs' => nums vs'
  | Num x :: vs' => x :: nums vs'
  end.

Fixpoint Rsum (xs : list R) : R :=
  match xs with [] => 0 | x :: xs' => x + Rsum xs' end.

(** [Series.mean()] *)
Definition mean (vs : list fv) : fv :=
  match nums vs with
  | [] => NaN
  | xs => Num (Rsum xs / INR (List.length xs))
  end.

(** [Series.std()], [ddof=1]: NaN with fewer than two values *)
Definition std (vs : list fv) : fv :=
  let xs := nums vs in
  let n := List.length xs in
  if Nat.ltb n 2 then NaN
  else
    let m := Rsum xs / INR n in
    Num (sqrt (Rsum (map (fun x => (x - m) * (x - m)) xs) / INR (n - 1))).

(** order statistics: insertion sort *)
Fixpoint insert (x : R) (xs : list R) : list R :=
  match xs with
  | [] => [x]
  | y :: ys => if Rleb x y then x :: y :: ys else y :: insert x ys
  end.

Fixpoint sort (xs : list R) : list R :=
  match xs with [] => [] | x :: xs' => insert x (sort xs') end.

(** numpy's [method='linear']: virtual index [q * (n - 1)], its floor and
    fractional part; the index above is clipped to [n - 1]. *)
Definition virtual_index (q : Q) (n : nat) : nat * Q :=
  let h := Qmult q (inject_Z (Z.of_nat (n - 1))) in
  let k := Qfloor h in
  (Z.to_nat k, Qminus h (inject_Z k)).

(** [Series.quantile(q)] *)
Definition quantile (q : Q) (vs : list fv) : fv :=
  let xs := sort (nums vs) in
  let n := List.length xs in
  match n with
  | O => NaN
  | _ =>
    let (k, g) := virtual_index q n in
    let a := nth k xs 0 in
    let b := nth (Nat.min (S k) (n - 1)) xs 0 in
    Num (a + Q2R g * (b - a))
  end.

(* ------------------------------------------------------------------ *)
(** ** The two estimators *)

Inductive kind : Type := StdRemove | IQRRemove.

Record estimator : Type := mkest {
  ekind : kind ;
  columns : list string ;
  factor : R ;
  bounds_ : list (string * (fv * fv))
}.

Definition default {A} (d : A) (o : option A) : A :=
  match o with Some a => a | None => d end.

(** [OutlierStdRemove(columns, factor=3.0)] *)
Definition OutlierStdRemove (columns : list string) (factor : option R) : estimator :=
  mkest StdRemove columns (default 3 factor) [].

(** [OutlierIQRRemove(columns, factor=1.5)] *)
Definition OutlierIQRRemove (columns : list string) (factor : option R) : estimator :=
  mkest IQRRemove columns (default (3 / 2) factor) [].

(** [self.bounds_[col]] *)
Fixpoint dict_get (d : list (string * (fv * fv))) (k : string) : option (fv * fv) :=
  match d with
  | [] => None
  | (k', v) :: d' => if String.eqb k k' then Some v else dict_get d' k
  end.

(** per-column [(lower_bounds[col], upper_bounds[col])] of each [fit].
    Arithmetic is exact on the reals; pandas computes in float64, so the
    std bounds it stores can differ from these by rounding (a constant
    column need not get a zero-width interval, and a value on the exact
    boundary can fall just outside). *)
Definition std_bounds (f : R) (vs : list fv) : fv * fv :=
  let means := mean vs in
  let stds := std vs in
  (fsub means (fmul stds (Num f)), fadd means (fmul stds (Num f))).

Definition iqr_bounds (f : R) (vs : list fv) : fv * fv :=
  let Q1 := quantile (1 # 4)%Q vs in
  let Q3 := quantile (3 # 4)%Q vs in
  let IQR := fsub Q3 Q1 in
  (fsub Q1 (fmul IQR (Num f)), fadd Q3 (fmul IQR (Num f))).

Definition kind_bounds (k : kind) : R -> list fv -> fv * fv :=
  match k with StdRemove => std_bounds | IQRRemove => iqr_bounds end.

(** [fit(self, X)]: [X_subset = X[self.columns]], then the bounds dict.
    One scalar pair is stored per monitored column. With a column listed
    twice in [columns], pandas instead stores a pair of Series for it and
    [transform] raises [ValueError]; the theorems on [transform] after
    [fit] assume distinct monitored columns. *)
Definition fit (self : estimator) (X : table) : result estimator :=
  X_subset <- subset X (columns self) ;;
  Ok (mkest (ekind self) (columns self) (factor self)
        (map (fun '(col, vs) => (col, kind_bounds (ekind self) (factor self) vs))
             X_subset)).

(** one round of the loop of [transform] *)
Definition in_bounds (col : string) (lower upper : fv) (r : row) : bool :=
  fge (rval r col) lower && fle (rval r col) upper.

Fixpoint transform_loop (b : list (string * (fv * fv))) (cols : list string)
    (X_transformed : table) : result table :=
  match cols with
  | [] => Ok X_transformed
  | col :: cols' =>
    match dict_get b col with
    | None => Err (KeyError col)
    | Some (lower, upper) =>
      if has_col X_transformed col
      then transform_loop b cols' (select X_transformed (in_bounds col lower upper))
      else Err (KeyError col)
    end
  end.

(** [transform(self, X)] (identical in both classes) *)
Definition transform (self : estimator) (X : table) : result table :=
  transform_loop (bounds_ self) (columns self) (copy X).

(* ------------------------------------------------------------------ *)
(** ** Frames as heap objects

    To talk about mutation, frames live in a store of objects addressed by
    locations; a pandas operation that builds a new frame allocates it.
    [fit] and [transform] only read the argument frame and allocate: the
    copy of [X.copy()], the sub-frame [X[self.columns]] and each boolean
    selection [X_transformed[mask]]. *)

Record heap : Type := mkheap { hmem : nat -> option table ; hnext : nat }.

(** every location at or above [hnext] is free *)
Definition heap_wf (h : heap) : Prop := forall n, (hnext h <= n)%nat -> hmem h n = None.

Definition alloc (h : heap) (t : table) : nat * heap :=
  (hnext h, mkheap (fun n => if Nat.eqb n (hnext h) then Some t else hmem h n) (S (hnext h))).

Definition load (h : heap) (l : nat) : result table :=
  match hmem h l with Some t => Ok t | None => Err IndexError end.

Definition subset_frame (X : table) (X_subset : list (string * list fv)) : table :=
  mktable (map fst X_subset) (trows X).

(** [fit(self, X)] on the frame at [l] *)
Definition fit_h (self : estimator) (l : nat) (h : heap) : result (estimator * heap) :=
  X <- load h l ;;
  X_subset <- subset X (columns self) ;;
  let '(_, h1) := alloc h (subset_frame X X_subset) in
  self' <- fit self X ;;
  Ok (self', h1).

Fixpoint transform_loop_h (b : list (string * (fv * fv))) (cols : list string)
    (l : nat) (h : heap) : result (nat * heap) :=
  match cols with
  | [] => Ok (l, h)
  | col :: cols' =>
    match dict_get b col with
    | None => Err (KeyError col)
    | Some (lower, upper) =>
      X_transformed <- load h l ;;
      if has_col X_transformed col
      then let '(l1, h1) := alloc h (select X_transformed (in_bounds col lower upper)) in
           transform_loop_h b cols' l1 h1
      else Err (KeyError col)
    end
  end.

(** [transform(self, X)] on the frame at [l]: returns the location of the result *)
Definition transform_h (self : estimator) (l : nat) (h : heap) : result (nat * heap) :=
  X <- load h l ;;
  let '(l0, h0) := alloc h (copy X) in
  transform_loop_h (bounds_ self) (columns self) l0 h0.

(* ------------------------------------------------------------------ *)
(** ** [ModelComparer.compare] *)

(** a label Series [y]: index label and value, in order *)
Definition series := list (nat * R).

(** [y.loc[labels]]: for each label in turn, every entry carrying it;
    [KeyError] when a label is absent. *)
Fixpoint loc (y : series) (labels : list nat) : result series :=
  match labels with
  | [] => Ok []
  | i :: is =>
    match filter (fun p => Nat.eqb (fst p) i) y with
    | [] => Err (KeyError "label")
    | hits => rest <- loc y is ;; Ok (hits ++ rest)
    end
  end.

(** positional selection of [_safe_indexing] *)
Fixpoint take_pos {A} (l : list A) (ps : list nat) : result (list A) :=
  match ps with
  | [] => Ok []
  | p :: ps' =>
    match nth_error l p with
    | None => Err IndexError
    | Some a => rest <- take_pos l ps' ;; Ok (a :: rest)
    end
  end.

(** one row of the result frame, indexed by [Dataset] *)
Record result_row : Type := mkresult {
  Dataset : string ;
  Model_Score : R ;
  Train_Samples : nat ;
  Test_Samples : nat
}.

Record comparer (Model : Type) : Type := mkcomparer {
  model : Model ;
  preprocessor : option estimator ;
  results_ : option (list result_row)
}.
Arguments mkcomparer {Model} _ _ _.
Arguments model {Model} _.
Arguments preprocessor {Model} _.
Arguments results_ {Model} _.

(** the locals of one run of [compare] *)
Record run : Type := mkrun {
  run_train : table ;
  run_test : table ;
  run_processor : option estimator ;
  run_processed : option (table * table * series * series) ;
  run_results : list result_row
}.

Section Compare.

(** The external collaborators: the model ([clone], [fit], [score]) and the
    randomised permutation of [train_test_split] (positions of the train and
    of the test rows for [n] samples, [test_size] and [random_state]). *)
Variable Model : Type.
Variable clone_model : Model -> Model.
Variable model_fit : Model -> table -> series -> result Model.
Variable model_score : Model -> table -> series -> result R.
Variable shuffle_split : nat -> R -> nat -> result (list nat * list nat).

(** [sklearn.base.clone] of an estimator: same parameters, fresh state *)
Definition clone (p : estimator) : estimator :=
  mkest (ekind p) (columns p) (factor p) [].

Definition train_test_split (X : table) (y : series) (test_size : R) (random_state : nat)
    : result (table * table * series * series) :=
  if negb (Nat.eqb (len X) (List.length y)) then Err ValueError else
  '(train, test) <- shuffle_split (len X) test_size random_state ;;
  X_train <- take_pos (trows X) train ;;
  X_test <- take_pos (trows X) test ;;
  y_train <- take_pos y train ;;
  y_test <- take_pos y test ;;
  Ok (mktable (tcols X) X_train, mktable (tcols X) X_test, y_train, y_test).

(** the body of [compare], returning its locals *)
Definition compare_run (self : comparer Model) (X : table) (y : series)
    (test_size : R) (random_state : nat) : result run :=
  '(X_train, X_test, y_train, y_test) <- train_test_split X y test_size random_state ;;
  raw_model <- model_fit (clone_model (model self)) X_train y_train ;;
  raw_score <- model_score raw_model X_test y_test ;;
  let raw := mkresult "Raw" raw_score (len X_train) (len X_test) in
  match preprocessor self with
  | None => Ok (mkrun X_train X_test None None [raw])
  | Some p =>
    processor <- fit (clone p) X_train ;;
    X_train_processed <- transform processor X_train ;;
    X_test_processed <- transform processor X_test ;;
    y_train_processed <- loc y_train (index X_train_processed) ;;
    y_test_processed <- loc y_test (index X_test_processed) ;;
    processed_model <- model_fit (clone_model (model self)) X_train_processed y_train_processed ;;
    processed_score <- model_score processed_model X_test_processed y_test_processed ;;
    Ok (mkrun X_train X_test (Some processor)
          (Some (X_train_processed, X_test_processed, y_train_processed, y_test_processed))
          [raw; mkresult "Processed" processed_score
                  (len X_train_processed) (len X_test_processed)])
  end.

(** [compare(self, X, y, test_size=0.2, random_state=42)]: stores and
    returns the result frame *)
Definition compare (self : comparer Model) (X : table) (y : series)
    (test_size : option R) (random_state : option nat)
    : result (list result_row * comparer Model) :=
  r <- compare_run self X y (default (2 / 10) test_size) (default 42%nat random_state) ;;
  Ok (run_results r, mkcomparer (model self) (preprocessor self) (Some (run_results r))).

End Compare.

(* ------------------------------------------------------------------ *)
(** ** Reading of the bounds: the claim's [[lower, upper]] membership *)

(** [v] lies within [[lower, upper]]: both bounds and [v] are numbers and
    [lower <= v <= upper]. *)
Definition lies_within (bnd : fv * fv) (v : fv) : Prop :=
  exists lo hi x, bnd = (Num lo, Num hi) /\ v = Num x /\ lo <= x <= hi.

(** the conjunction over the monitored columns that the loop computes *)
Definition all_in (b : list (string * (fv * fv))) (cols : list string) (r : row) : bool :=
  forallb (fun c => match dict_get b c with
                    | Some (lo, hi) => in_bounds c lo hi r
                    | None => false
                    end) cols.

(* ------------------------------------------------------------------ *)
(** ** Readings of the claims as written, and worked examples *)

(** Calling [transform] before [fit] is always an error (claim as written). *)
Definition transform_before_fit_fails : Prop :=
  forall (cols : list string) (fo : option R) (X : table),
    exists e, transform (OutlierStdRemove cols fo) X = Err e.

(** Reading of C2 as written: mean and sample standard deviation over every
    row of the column, no row excluded; a NaN cell makes the IEEE sum, hence
    both statistics, NaN. *)
Fixpoint all_nums (vs : list fv) : option (list R) :=
  match vs with
  | [] => Some []
  | NaN :: _ => None
  | Num x :: vs' => match all_nums vs' with Some xs => Some (x :: xs) | None => None end
  end.

Definition mean_all (vs : list fv) : fv :=
  match all_nums vs with
  | Some (_ :: _ as xs) => Num (Rsum xs / INR (List.length xs))
  | _ => NaN
  end.

Definition std_all (vs : list fv) : fv :=
  match all_nums vs with
  | Some xs =>
    if Nat.ltb (List.length xs) 2 then NaN
    else let m := Rsum xs / INR (List.length xs) in
         Num (sqrt (Rsum (map (fun x => (x - m) * (x - m)) xs) / INR (List.length xs - 1)))
  | None => NaN
  end.

Definition std_fit_over_all_rows : Prop :=
  forall (cols : list string) (fo : option R) (T : table) (est' : estimator),
    fit (OutlierStdRemove cols fo) T = Ok est' ->
    forall c, In c cols ->
      let vs := map (fun r => rval r c) (trows T) in
      dict_get (bounds_ est') c =
      Some (fsub (mean_all vs) (fmul (std_all vs) (Num (factor est'))),
            fadd (mean_all vs) (fmul (std_all vs) (Num (factor est')))).

Definition nan_table : table :=
  mktable ["a"%string] [mkrow 0 (fun _ => Num 1); mkrow 1 (fun _ => NaN); mkrow 2 (fun _ => Num 3)].

(** [v] is the [q]-quantile of the sorted sample [s] by linear interpolation
    between the order statistics around the position [q * (n - 1)]. *)
Definition interpolates (s : list R) (q : Q) (v : R) : Prop :=
  exists (k : nat) (g : Q),
    (inject_Z (Z.of_nat k) + g == q * inject_Z (Z.of_nat (List.length s - 1)))%Q /\
    (0 <= g < 1)%Q /\
    v = (1 - Q2R g) * nth k s 0 + Q2R g * nth (Nat.min (S k) (List.length s - 1)) s 0.

(** the column of the spec's worked example, index labels 0..9 *)
Definition example_table : table :=
  mktable ["x"%string]
    [mkrow 0 (fun _ => Num 1); mkrow 1 (fun _ => Num 2); mkrow 2 (fun _ => Num 3);
     mkrow 3 (fun _ => Num 4); mkrow 4 (fun _ => Num 5); mkrow 5 (fun _ => Num 6);
     mkrow 6 (fun _ => Num 7); mkrow 7 (fun _ => Num 8); mkrow 8 (fun _ => Num 9);
     mkrow 9 (fun _ => Num 100)].

Definition example_column : list fv := map (fun r => rval r "x"%string) (trows example_table).

(** an in-place update of the frame at [l] (e.g. [X_t['a'] = 0]) *)
Definition write (h : heap) (l : nat) (t : table) : heap :=
  mkheap (fun n => if Nat.eqb n l then Some t else hmem h n) (hnext h).

(* ------------------------------------------------------------------ *)
(** ** Concrete inputs *)

(** the IQR estimator fitted on the worked example *)
Definition example_fitted : estimator :=
  mkest IQRRemove ["x"%string] (3 / 2) [("x"%string, iqr_bounds (3 / 2) example_column)].

(** bounds [[0, 10]] on column ["x"], and a frame with a value inside and one outside *)
Definition small_est : estimator := mkest StdRemove ["x"%string] 3 [("x"%string, (Num 0, Num 10))].

Definition small_table : table :=
  mktable ["x"%string] [mkrow 0 (fun _ => Num 7); mkrow 1 (fun _ => Num 20)].

Definition small_kept : table := mktable ["x"%string] [mkrow 0 (fun _ => Num 7)].


(** bounds [[5, 30]] on column ["x"] *)
Definition small_est2 : estimator := mkest IQRRemove ["x"%string] (3 / 2) [("x"%string, (Num 5, Num 30))].

(** the worked example with its rows in reverse order *)
Definition example_table_rev : table := mktable ["x"%string] (rev (trows example_table)).


(** a store holding [small_table] at location 0 *)
Definition small_heap : heap :=
  mkheap (fun n => match n with O => Some small_table | S _ => None end) 1.

(** a model that ignores its data and scores the number of labels *)
Definition wt_clone (m : unit) : unit := m.
Definition wt_fit (m : unit) (X : table) (y : series) : result unit := Ok m.
Definition wt_score (m : unit) (X : table) (y : series) : result R := Ok (INR (List.length y)).

(** two fixed permutations: train positions [2; 0], test [1]; or train [0], test [1; 2] *)
Definition wt_split (n : nat) (ts : R) (rs : nat) : result (list nat * list nat) :=
  Ok ([2; 0]%nat, [1%nat]).
Definition wt_split1 (n : nat) (ts : R) (rs : nat) : result (list nat * list nat) :=
  Ok ([0%nat], [1; 2]%nat).

Definition wt_frame (v : R) : table :=
  mktable ["a"%string]
    [mkrow 10 (fun _ => Num 1); mkrow 11 (fun _ => Num v); mkrow 12 (fun _ => Num 3)].

Definition wt_labels : series := [(10%nat, 0); (11%nat, 1); (12%nat, 0)].

(** a preprocessor monitoring no column, and the std one on column ["a"] *)
Definition wt_keep : comparer unit := mkcomparer tt (Some (OutlierStdRemove [] None)) None.
Definition wt_std : comparer unit := mkcomparer tt (Some (OutlierStdRemove ["a"%string] None)) None.

Definition wt_keep_results : list result_row :=
  [mkresult "Raw" (INR 1) 2 1; mkresult "Processed" (INR 1) 2 1].
(** the run of [compare] on [wt_frame v] with [wt_std] and [wt_split1]: the
    training partition is the single row 10, whose std is NaN, so both
    filtered partitions are empty *)
Definition wt_std_run (v : R) : run :=
  mkrun (mktable ["a"%string] [mkrow 10 (fun _ => Num 1)])
        (mktable ["a"%string] [mkrow 11 (fun _ => Num v); mkrow 12 (fun _ => Num 3)])
        (Some (mkest StdRemove ["a"%string] 3 [("a"%string, std_bounds 3 [Num 1])]))
        (Some (mktable ["a"%string] [], mktable ["a"%string] [], [], []))
        [mkresult "Raw" (INR 2) 1 2; mkresult "Processed" (INR 0) 0 0].
(** the run of [compare] on [wt_frame 5] with [wt_keep] and [wt_split]: the
    partitions come out shuffled and the preprocessor keeps every row *)
Definition wt_keep_train : table :=
  mktable ["a"%string] [mkrow 12 (fun _ => Num 3); mkrow 10 (fun _ => Num 1)].
Definition wt_keep_test : table := mktable ["a"%string] [mkrow 11 (fun _ => Num 5)].
Definition wt_keep_run : run :=
  mkrun wt_keep_train wt_keep_test (Some (mkest StdRemove [] 3 []))
        (Some (wt_keep_train, wt_keep_test, [(12%nat, 0); (10%nat, 0)], [(11%nat, 1)]))
        wt_keep_results.

(* ------------------------------------------------------------------ *)
(** ** Lemmas on the embedding *)

Lemma Rleb_true (a b : R) : Rleb a b = true <-> a <= b.
Proof. unfold Rleb; destruct (Rle_dec a b); split; intro; auto; discriminate || contradiction. Qed.

Lemma in_bounds_spec (c : string) (lo hi : fv) (r : row) :
  in_bounds c lo hi r = true <-> lies_within (lo, hi) (rval r c).
Proof.
  unfold in_bounds, lies_within.
  destruct (rval r c) as [|x], lo as [|l], hi as [|u]; cbn [fge fle andb];
    split; intro H; try rewrite andb_false_r in H; try discriminate;
    try (destruct H as (? & ? & ? & E1 & E2 & _); discriminate).
  - apply andb_prop in H as [H1 H2]. apply Rleb_true in H1, H2.
    exists l, u, x; auto.
  - destruct H as (l' & u' & x' & E1 & E2 & H1 & H2).
    inversion E1; inversion E2; subst.
    apply Rleb_true in H1, H2. rewrite H1, H2. reflexivity.
Qed.

Lemma filter_filter {A} (p q : A -> bool) (l : list A) :
  filter q (filter p l) = filter (fun x => p x && q x) l.
Proof.
  induction l as [|a l IH]; simpl; auto.
  destruct (p a); simpl; destruct (q a); simpl; rewrite IH; auto.
Qed.

Lemma has_col_select (X : table) (m : row -> bool) (c : string) :
  has_col (select X m) c = has_col X c.
Proof. reflexivity. Qed.

(** success of the loop, and its value *)
Lemma transform_loop_ok (b : list (string * (fv * fv))) (cols : list string) (X : table) :
  (forall c, In c cols -> dict_get b c <> None /\ has_col X c = true) ->
  transform_loop b cols X = Ok (mktable (tcols X) (filter (all_in b cols) (trows X))).
Proof.
  revert X; induction cols as [|c cs IH]; intros X H; simpl.
  - f_equal. destruct X as [xc xr]; simpl. f_equal.
    induction xr as [|r xr IHr]; simpl; auto. rewrite <- IHr; auto.
  - destruct (H c (or_introl eq_refl)) as [Hd Hc].
    destruct (dict_get b c) as [[lo hi]|] eqn:E; [|congruence].
    rewrite Hc. rewrite IH.
    + simpl. rewrite filter_filter. do 2 f_equal. apply filter_ext; intro r.
      unfold all_in; simpl. rewrite E. reflexivity.
    + intros c' Hin. rewrite has_col_select. apply H; simpl; auto.
Qed.

Lemma transform_loop_inv (b : list (string * (fv * fv))) (cols : list string) (X Y : table) :
  transform_loop b cols X = Ok Y ->
  (forall c, In c cols -> dict_get b c <> None /\ has_col X c = true).
Proof.
  revert X; induction cols as [|c cs IH]; intros X H c' Hin; simpl in *; [contradiction|].
  destruct (dict_get b c) as [[lo hi]|] eqn:E; [|discriminate].
  destruct (has_col X c) eqn:Hc; [|discriminate].
  destruct Hin as [<-|Hin].
  - rewrite E; split; [discriminate|auto].
  - rewrite <- (has_col_select X (in_bounds c lo hi)). eapply IH; eauto.
Qed.

Lemma transform_loop_value (b : list (string * (fv * fv))) (cols : list string) (X Y : table) :
  transform_loop b cols X = Ok Y ->
  Y = mktable (tcols X) (filter (all_in b cols) (trows X)).
Proof.
  intro H. pose proof (transform_loop_inv _ _ _ _ H) as Hi.
  rewrite transform_loop_ok in H by exact Hi. inversion H; auto.
Qed.

Lemma all_in_spec (b : list (string * (fv * fv))) (cols : list string) (r : row) :
  all_in b cols r = true <->
  forall c, In c cols -> exists bnd, dict_get b c = Some bnd /\ lies_within bnd (rval r c).
Proof.
  unfold all_in. rewrite forallb_forall. split; intros H c Hc; specialize (H c Hc).
  - destruct (dict_get b c) as [[lo hi]|]; [|discriminate].
    exists (lo, hi); split; auto. apply in_bounds_spec; auto.
  - destruct H as ([lo hi] & -> & Hw). apply in_bounds_spec; auto.
Qed.

Lemma all_in_perm (b : list (string * (fv * fv))) (cols cols' : list string) (r : row) :
  Permutation cols cols' -> all_in b cols r = all_in b cols' r.
Proof.
  intro P. apply Bool.eq_iff_eq_true. rewrite !all_in_spec.
  split; intros H c Hc; apply H; [apply (Permutation_in _ (Permutation_sym P))|apply (Permutation_in _ P)]; auto.
Qed.

(** [fit]: the sub-frame names every monitored column *)
Lemma subset_ok (X : table) (cols : list string) (S : list (string * list fv)) :
  subset X cols = Ok S ->
  S = map (fun c => (c, map (fun r => rval r c) (trows X))) cols /\
  (forall c, In c cols -> has_col X c = true).
Proof.
  revert S; induction cols as [|c cs IH]; intros S H; simpl in *.
  - inversion H; auto.
  - unfold column in H. destruct (has_col X c) eqn:Hc; [|discriminate]. simpl in H.
    destruct (subset X cs) as [S'|e] eqn:E; [|discriminate]. simpl in H. inversion H; subst.
    destruct (IH S' eq_refl) as [-> H2]. split; auto.
    intros c' [<-|Hin]; auto.
Qed.

Lemma subset_complete (X : table) (cols : list string) :
  (forall c, In c cols -> has_col X c = true) ->
  subset X cols = Ok (map (fun c => (c, map (fun r => rval r c) (trows X))) cols).
Proof.
  induction cols as [|c cs IH]; intro H; simpl; auto.
  unfold column. rewrite (H c (or_introl eq_refl)). simpl.
  rewrite IH by (intros; apply H; simpl; auto). reflexivity.
Qed.

Lemma dict_get_map (g : string -> fv * fv) (cols : list string) (c : string) :
  In c cols -> dict_get (map (fun c' => (c', g c')) cols) c = Some (g c).
Proof.
  induction cols as [|c' cs IH]; simpl; [contradiction|]. intros [<-|Hin].
  - rewrite String.eqb_refl; auto.
  - destruct (String.eqb c c') eqn:E; auto. apply String.eqb_eq in E; subst; auto.
Qed.

(** [fit] keeps the parameters and stores, for each monitored column, the
    bounds computed from that column of the whole frame *)
Lemma fit_spec (est est' : estimator) (T : table) :
  fit est T = Ok est' ->
  ekind est' = ekind est /\ columns est' = columns est /\ factor est' = factor est /\
  (forall c, In c (columns est) -> has_col T c = true) /\
  forall c, In c (columns est) ->
    dict_get (bounds_ est') c =
    Some (kind_bounds (ekind est) (factor est) (map (fun r => rval r c) (trows T))).
Proof.
  unfold fit. destruct (subset T (columns est)) as [S|e] eqn:E; simpl; [|discriminate].
  intro H; inversion H; subst; clear H; simpl.
  destruct (subset_ok _ _ _ E) as [-> Hc]. repeat split; auto.
  intros c Hin. rewrite map_map.
  apply (dict_get_map (fun c' => kind_bounds (ekind est) (factor est) (map (fun r => rval r c') (trows T)))); auto.
Qed.

Lemma fit_complete (est : estimator) (T : table) :
  (forall c, In c (columns est) -> has_col T c = true) -> exists est', fit est T = Ok est'.
Proof. intro H. unfold fit. rewrite subset_complete by exact H. simpl. eexists; reflexivity. Qed.

Lemma subset_err_inv (X : table) (cols : list string) (e : err) :
  subset X cols = Err e -> exists c, In c cols /\ has_col X c = false /\ e = KeyError c.
Proof.
  induction cols as [|c cs IH]; simpl; [discriminate|]. unfold column.
  destruct (has_col X c) eqn:Eh; simpl.
  - destruct (subset X cs) eqn:Es; simpl; [discriminate|]. intro H; inversion H; subst.
    destruct (IH eq_refl) as (c' & ? & ? & ?). exists c'. auto.
  - intro H; inversion H; subst. exists c. auto.
Qed.

(** a missing monitored column makes [fit] raise a [KeyError] *)
Lemma fit_missing_col (est : estimator) (T : table) :
  (exists c, In c (columns est) /\ has_col T c = false) ->
  exists c, In c (columns est) /\ has_col T c = false /\ fit est T = Err (KeyError c).
Proof.
  intros (c & Hc & Hm). destruct (fit est T) as [est'|e] eqn:E.
  - destruct (fit_spec _ _ _ E) as (_ & _ & _ & HT & _). rewrite (HT c Hc) in Hm. discriminate.
  - unfold fit in E. destruct (subset T (columns est)) eqn:Es; simpl in E; [discriminate|].
    inversion E; subst. destruct (subset_err_inv _ _ _ Es) as (c' & ? & ? & ->).
    exists c'. auto.
Qed.

Lemma forallb_false {A} (f : A -> bool) (l : list A) :
  forallb f l = false -> exists x, In x l /\ f x = false.
Proof.
  induction l as [|a l IH]; simpl; [discriminate|]. intro H.
  destruct (f a) eqn:E; simpl in H; [|exists a; auto].
  destruct (IH H) as (x & Hx & Hf). exists x; auto.
Qed.

Lemma transform_loop_perm (b : list (string * (fv * fv))) (cols cols' : list string) (X Y : table) :
  Permutation cols cols' -> transform_loop b cols X = Ok Y -> transform_loop b cols' X = Ok Y.
Proof.
  intros P H. pose proof (transform_loop_inv _ _ _ _ H) as Hi.
  rewrite (transform_loop_value _ _ _ _ H).
  rewrite transform_loop_ok.
  - do 2 f_equal. apply filter_ext; intro r. symmetry; apply all_in_perm; auto.
  - intros c Hc. apply Hi. apply (Permutation_in _ (Permutation_sym P)); auto.
Qed.

Lemma transform_value (est : estimator) (X Y : table) :
  transform est X = Ok Y ->
  Y = mktable (tcols X) (filter (all_in (bounds_ est) (columns est)) (trows X)).
Proof. apply transform_loop_value. Qed.

(** after [fit], every monitored column has a bound *)
Lemma fit_bounds_defined (est est' : estimator) (T : table) :
  fit est T = Ok est' -> forall c, In c (columns est') -> dict_get (bounds_ est') c <> None.
Proof.
  intros H c Hc. destruct (fit_spec _ _ _ H) as (_ & Hcols & _ & _ & Hb).
  rewrite Hcols in Hc. rewrite (Hb c Hc). discriminate.
Qed.

Lemma fit_transform_ok (est est' : estimator) (T X : table) :
  fit est T = Ok est' ->
  (forall c, In c (columns est) -> has_col X c = true) ->
  transform est' X = Ok (mktable (tcols X) (filter (all_in (bounds_ est') (columns est')) (trows X))).
Proof.
  intros Hf HX. unfold transform, copy. apply transform_loop_ok.
  intros c Hc. split; [eapply fit_bounds_defined; eauto|].
  destruct (fit_spec _ _ _ Hf) as (_ & Hcols & _). rewrite Hcols in Hc. auto.
Qed.

(* ------------------------------------------------------------------ *)
(** ** Row filtering *)

(** C1. For an estimator fitted by [fit] (either variant) and a frame [X]
    holding the monitored columns, [transform] returns the frame whose rows
    are exactly the rows of [X], in order, whose value lies within the stored
    [[lower, upper]] of every monitored column; every row left out violates
    the bound of some monitored column; and evaluating the columns in any
    order gives the same result. The monitored columns are distinct: with a
    column listed twice, pandas stores Series-valued bounds and [transform]
    raises [ValueError], a case the embedding does not model. *)
Theorem transform_filters_within_bounds (est est' : estimator) (T X : table) :
  fit est T = Ok est' -> NoDup (columns est) ->
  (forall c, In c (columns est) -> has_col X c = true) ->
  exists Y, transform est' X = Ok Y /\
    tcols Y = tcols X /\
    (exists keep, trows Y = filter keep (trows X) /\
       forall r, keep r = true <->
         forall c, In c (columns est') ->
           exists bnd, dict_get (bounds_ est') c = Some bnd /\ lies_within bnd (rval r c)) /\
    (forall r, In r (trows X) -> ~ In r (trows Y) ->
       exists c, In c (columns est') /\
         forall bnd, dict_get (bounds_ est') c = Some bnd -> ~ lies_within bnd (rval r c)) /\
    (forall cols', Permutation (columns est') cols' ->
       transform (mkest (ekind est') cols' (factor est') (bounds_ est')) X = Ok Y).
Proof.
  intros Hf _ HX. pose proof (fit_transform_ok _ _ _ _ Hf HX) as Ht.
  eexists; split; [exact Ht|]. split; [reflexivity|]. split; [|split].
  - exists (all_in (bounds_ est') (columns est')). split; [reflexivity|].
    intro r. apply all_in_spec.
  - intros r Hin Hout. simpl in Hout.
    destruct (all_in (bounds_ est') (columns est') r) eqn:E.
    + exfalso. apply Hout. apply filter_In; auto.
    + destruct (forallb_false _ _ E) as (c & Hc & Hfc). exists c; split; auto.
      intros [lo hi] Hb Hw. rewrite Hb in Hfc. apply in_bounds_spec in Hw. congruence.
  - intros cols' P. unfold transform, copy. simpl.
    apply (transform_loop_perm _ (columns est')); auto.
Qed.

(** C5. [transform] with fixed bounds is idempotent: on the frame it
    returned, it returns that same frame. *)
Theorem transform_idempotent (est : estimator) (X Y : table) :
  transform est X = Ok Y -> transform est Y = Ok Y.
Proof.
  intro H. pose proof (transform_loop_inv _ _ _ _ H) as Hi.
  rewrite (transform_value _ _ _ H). unfold transform, copy.
  rewrite transform_loop_ok; simpl.
  - rewrite filter_filter. do 2 f_equal. apply filter_ext; intro r. apply andb_diag.
  - intros c Hc. destruct (Hi c Hc) as [Hd Hx]. split; auto.
Qed.

(** [transform] on an estimator that was never fitted: its [bounds_] is the
    empty dict of [__init__] (or of [clone]). *)
Lemma transform_empty_bounds (est : estimator) (X : table) :
  bounds_ est = [] ->
  match columns est with
  | [] => transform est X = Ok X
  | c :: _ => transform est X = Err (KeyError c)
  end.
Proof. intro Hb. unfold transform, copy. rewrite Hb. destruct (columns est); reflexivity. Qed.

(** C8 (counterexample). With an empty monitored-column list, an estimator
    that was never fitted transforms without error. *)
Lemma transform_before_fit_counterexample : ~ transform_before_fit_fails.
Proof.
  intro H. destruct (H [] None (mktable [] [])) as [e He]. discriminate.
Qed.

(** C8 (amended). On an estimator of either variant that was never fitted,
    [transform] raises [KeyError] for the first monitored column on every
    frame when the column list is non-empty, and returns the copy of the
    frame when it is empty. *)
Theorem transform_before_fit (cols : list string) (fo : option R) (X : table) :
  (forall c cs, cols = c :: cs ->
     transform (OutlierStdRemove cols fo) X = Err (KeyError c) /\
     transform (OutlierIQRRemove cols fo) X = Err (KeyError c)) /\
  (cols = [] ->
     transform (OutlierStdRemove cols fo) X = Ok X /\
     transform (OutlierIQRRemove cols fo) X = Ok X).
Proof.
  split.
  - intros c cs ->. split;
      [apply (transform_empty_bounds (OutlierStdRemove (c :: cs) fo))
      |apply (transform_empty_bounds (OutlierIQRRemove (c :: cs) fo))]; reflexivity.
  - intros ->. split;
      [apply (transform_empty_bounds (OutlierStdRemove [] fo))
      |apply (transform_empty_bounds (OutlierIQRRemove [] fo))]; reflexivity.
Qed.

Lemma nums_length (vs : list fv) : (List.length (nums vs) <= List.length vs)%nat.
Proof. induction vs as [|[|x] vs IH]; simpl; lia. Qed.

Lemma std_short (vs : list fv) : (List.length vs < 2)%nat -> std vs = NaN.
Proof.
  intro H. unfold std. pose proof (nums_length vs).
  replace (Nat.ltb (List.length (nums vs)) 2) with true; auto.
  symmetry; apply Nat.ltb_lt; lia.
Qed.

Lemma in_bounds_nan (c : string) (lo hi : fv) (r : row) :
  (is_nan lo || is_nan hi || is_nan (rval r c))%bool = true -> in_bounds c lo hi r = false.
Proof.
  unfold in_bounds. destruct lo, hi, (rval r c); simpl; auto; try discriminate.
  intros _. apply andb_false_r.
Qed.

(** C10. Rows holding NaN in a monitored column never survive [transform];
    fitting the std variant on fewer than two rows stores NaN bounds; and a
    NaN bound on a monitored column of a fitted estimator (with distinct
    monitored columns) makes [transform] return the frame with no rows. *)
Theorem transform_nan_excluded :
  (forall (est : estimator) (X Y : table) (r : row) (c : string),
     transform est X = Ok Y -> In c (columns est) -> In r (trows Y) -> rval r c <> NaN) /\
  (forall (cols : list string) (fo : option R) (T : table) (est' : estimator),
     fit (OutlierStdRemove cols fo) T = Ok est' -> (len T < 2)%nat ->
     forall c, In c cols -> dict_get (bounds_ est') c = Some (NaN, NaN)) /\
  (forall (est est' : estimator) (T X : table) (c : string) (bnd : fv * fv),
     fit est T = Ok est' -> NoDup (columns est) ->
     (forall c', In c' (columns est) -> has_col X c' = true) ->
     In c (columns est) -> dict_get (bounds_ est') c = Some bnd ->
     (is_nan (fst bnd) || is_nan (snd bnd))%bool = true ->
     transform est' X = Ok (mktable (tcols X) [])).
Proof.
  split; [|split].
  - intros est X Y r c H Hc Hr Hn. rewrite (transform_value _ _ _ H) in Hr. simpl in Hr.
    apply filter_In in Hr as [_ Ha]. unfold all_in in Ha. rewrite forallb_forall in Ha.
    specialize (Ha c Hc). destruct (dict_get (bounds_ est) c) as [[lo hi]|]; [|discriminate].
    rewrite in_bounds_nan in Ha; [discriminate|]. rewrite Hn, !orb_true_r; reflexivity.
  - intros cols fo T est' H Hlen c Hc.
    destruct (fit_spec _ _ _ H) as (_ & _ & _ & _ & Hb). rewrite (Hb c Hc). simpl.
    unfold std_bounds. rewrite std_short; [destruct (mean _); reflexivity|].
    rewrite length_map. exact Hlen.
  - intros est est' T X c bnd Hf _ HX Hc Hb Hn.
    rewrite (fit_transform_ok _ _ _ _ Hf HX). do 2 f_equal.
    destruct (fit_spec _ _ _ Hf) as (_ & Hcols & _).
    induction (trows X) as [|r rs IH]; simpl; auto.
    replace (all_in (bounds_ est') (columns est') r) with false; auto.
    symmetry. unfold all_in. apply not_true_iff_false. rewrite forallb_forall. intro Ha.
    rewrite Hcols in Ha. specialize (Ha c Hc). rewrite Hb in Ha. destruct bnd as [lo hi].
    rewrite in_bounds_nan in Ha; [discriminate|]. simpl in Hn |- *. rewrite Hn. reflexivity.
Qed.

(* ------------------------------------------------------------------ *)
(** ** The std variant *)

(** C2 (counterexample). On the column [[1, NaN, 3]] the NaN row is left out
    of the statistics: the stored bounds are numbers, not the NaN bounds of
    statistics taken over all three rows. *)
Lemma std_fit_over_all_rows_counterexample : ~ std_fit_over_all_rows.
Proof.
  intro H. specialize (H ["a"%string] None nan_table _ eq_refl "a"%string (or_introl eq_refl)).
  cbv beta zeta in H. simpl in H. discriminate H.
Qed.

Lemma Rsum_sq_nonneg (m : R) (xs : list R) : 0 <= Rsum (map (fun x => (x - m) * (x - m)) xs).
Proof.
  induction xs as [|x xs IH]; simpl; [lra|].
  pose proof (Rle_0_sqr (x - m)) as Hs. unfold Rsqr in Hs. lra.
Qed.

(** C2 (amended). [fit] of the std variant succeeds exactly when the frame
    holds the monitored columns, and raises a [KeyError] for a missing
    monitored column otherwise; it keeps the factor (3.0 by default) and
    stores, for each monitored column, [lower = mu - factor * sigma] and
    [upper = mu + factor * sigma] where [mu] and [sigma] are the mean and the
    sample standard deviation (ddof 1) of the non-NaN cells of that column
    over all rows; with fewer than two non-NaN cells both bounds are NaN. *)
Theorem fit_std_bounds (cols : list string) (fo : option R) (T : table) :
  ((forall c, In c cols -> has_col T c = true) ->
     exists est', fit (OutlierStdRemove cols fo) T = Ok est') /\
  ((exists c, In c cols /\ has_col T c = false) ->
     exists c, In c cols /\ has_col T c = false /\
       fit (OutlierStdRemove cols fo) T = Err (KeyError c)) /\
  (forall est', fit (OutlierStdRemove cols fo) T = Ok est' ->
     factor est' = default 3 fo /\ columns est' = cols /\
     forall c, In c cols ->
       let xs := nums (map (fun r => rval r c) (trows T)) in
       let n := List.length xs in
       ((2 <= n)%nat ->
          exists mu sigma,
            mu * INR n = Rsum xs /\ 0 <= sigma /\
            sigma * sigma * INR (n - 1) = Rsum (map (fun x => (x - mu) * (x - mu)) xs) /\
            dict_get (bounds_ est') c =
            Some (Num (mu - factor est' * sigma), Num (mu + factor est' * sigma))) /\
       ((n < 2)%nat -> dict_get (bounds_ est') c = Some (NaN, NaN))).
Proof.
  split; [apply (fit_complete (OutlierStdRemove cols fo))|].
  split; [apply (fit_missing_col (OutlierStdRemove cols fo))|].
  intros est' Hf. destruct (fit_spec _ _ _ Hf) as (_ & Hcols & Hfac & _ & Hb).
  simpl in Hcols, Hfac, Hb. split; [auto|]. split; [auto|].
  intros c Hc xs n. rewrite (Hb c Hc). unfold std_bounds, mean, std. fold xs.
  assert (En : List.length xs = n) by reflexivity. clearbody xs n. rewrite En.
  clear Hf Hb Hcols Hc. split.
  - intro Hn. replace (Nat.ltb n 2) with false by (symmetry; apply Nat.ltb_ge; lia).
    assert (Hn0 : 0 < INR n) by (apply lt_0_INR; lia).
    assert (Hn1 : 0 < INR (n - 1)) by (apply lt_0_INR; lia).
    remember (Rsum xs / INR n) as mu eqn:Emu.
    remember (Rsum (map (fun x => (x - mu) * (x - mu)) xs)) as ssq eqn:Essq.
    assert (HS : 0 <= ssq / INR (n - 1)).
    { subst ssq. unfold Rdiv. apply Rmult_le_pos; [apply Rsum_sq_nonneg|].
      left; apply Rinv_0_lt_compat; auto. }
    exists mu, (sqrt (ssq / INR (n - 1))). split; [|split; [|split]].
    + subst mu. field. lra.
    + apply sqrt_pos.
    + rewrite sqrt_sqrt by exact HS. rewrite <- Essq. field. lra.
    + destruct xs as [|x0 xs']; [simpl in En; lia|].
      cbv beta iota. rewrite En, Hfac. subst mu. cbn [fsub fadd fmul]. do 3 f_equal; ring.
  - intro Hn. replace (Nat.ltb n 2) with true by (symmetry; apply Nat.ltb_lt; lia).
    destruct xs; reflexivity.
Qed.

(* ------------------------------------------------------------------ *)
(** ** The IQR variant *)

Lemma Rleb_false (a b : R) : ~ a <= b -> Rleb a b = false.
Proof. unfold Rleb; destruct (Rle_dec a b); tauto. Qed.

Lemma insert_perm (x : R) (l : list R) : Permutation (insert x l) (x :: l).
Proof.
  induction l as [|y l IH]; simpl; auto.
  destruct (Rleb x y); auto.
  eapply perm_trans; [apply perm_skip, IH|]. apply perm_swap.
Qed.

Lemma sort_perm (l : list R) : Permutation (sort l) l.
Proof.
  induction l as [|x l IH]; simpl; auto.
  eapply perm_trans; [apply insert_perm|]. apply perm_skip, IH.
Qed.

Lemma insert_sorted (x : R) (l : list R) : Sorted Rle l -> Sorted Rle (insert x l).
Proof.
  induction l as [|y l IH]; simpl; intro H.
  - repeat constructor.
  - unfold Rleb. destruct (Rle_dec x y) as [Hxy|Hxy].
    + constructor; auto.
    + apply Sorted_inv in H as [Hl Hh]. constructor; [apply IH; auto|].
      destruct l as [|z l']; simpl; [constructor; lra|].
      unfold Rleb. destruct (Rle_dec x z); constructor; [lra|].
      inversion Hh; auto.
Qed.

Lemma sort_sorted (l : list R) : Sorted Rle (sort l).
Proof. induction l; simpl; [constructor|]. apply insert_sorted; auto. Qed.

Lemma sort_length (l : list R) : List.length (sort l) = List.length l.
Proof. apply Permutation_length, sort_perm. Qed.

Lemma virtual_index_spec (q : Q) (n : nat) :
  (0 <= q)%Q ->
  let '(k, g) := virtual_index q n in
  (inject_Z (Z.of_nat k) + g == q * inject_Z (Z.of_nat (n - 1)))%Q /\ (0 <= g < 1)%Q.
Proof.
  intro Hq. unfold virtual_index.
  set (h := (q * inject_Z (Z.of_nat (n - 1)))%Q).
  assert (Hh : (0 <= h)%Q).
  { unfold h. apply Qmult_le_0_compat; auto. unfold Qle; simpl; lia. }
  assert (Hf : (0 <= Qfloor h)%Z).
  { pose proof (Qlt_floor h) as H1. assert (H2 : (0 < inject_Z (Qfloor h + 1))%Q) by
      (eapply Qle_lt_trans; eauto).
    change 0%Q with (inject_Z 0) in H2. rewrite <- Zlt_Qlt in H2. lia. }
  rewrite Z2Nat.id by exact Hf. split; [ring|]. split.
  - pose proof (Qfloor_le h). rewrite <- (Qplus_le_l _ _ (inject_Z (Qfloor h))).
    setoid_replace (h - inject_Z (Qfloor h) + inject_Z (Qfloor h))%Q with h by ring.
    setoid_replace (0 + inject_Z (Qfloor h))%Q with (inject_Z (Qfloor h)) by ring. auto.
  - pose proof (Qlt_floor h). rewrite inject_Z_plus in H.
    rewrite <- (Qplus_lt_l _ _ (inject_Z (Qfloor h))).
    setoid_replace (h - inject_Z (Qfloor h) + inject_Z (Qfloor h))%Q with h by ring.
    setoid_replace (1 + inject_Z (Qfloor h))%Q with (inject_Z (Qfloor h) + inject_Z 1)%Q by ring.
    auto.
Qed.

Lemma quantile_spec (q : Q) (vs : list fv) :
  (0 <= q)%Q ->
  (nums vs = [] -> quantile q vs = NaN) /\
  (nums vs <> [] -> exists v, quantile q vs = Num v /\ interpolates (sort (nums vs)) q v).
Proof.
  intro Hq. unfold quantile. split.
  - intros ->. reflexivity.
  - intro Hne.
    assert (Hl : List.length (sort (nums vs)) <> 0%nat).
    { rewrite sort_length. intro H0. apply length_zero_iff_nil in H0. contradiction. }
    destruct (List.length (sort (nums vs))) eqn:En; [contradiction|].
    + rewrite <- En. pose proof (virtual_index_spec q (List.length (sort (nums vs))) Hq) as Hv.
      destruct (virtual_index q (List.length (sort (nums vs)))) as [k g].
      eexists; split; [reflexivity|]. exists k, g. destruct Hv as [H1 H2].
      split; [exact H1|]. split; [exact H2|]. ring.
Qed.

Lemma sort_sorted_id (l : list R) : Sorted Rle l -> sort l = l.
Proof.
  induction l as [|x l IH]; simpl; intro H; auto.
  apply Sorted_inv in H as [Hl Hh]. rewrite IH by exact Hl.
  destruct l as [|y l']; auto. simpl. inversion Hh; subst.
  rewrite (proj2 (Rleb_true x y)); auto.
Qed.

Ltac solve_rleb :=
  repeat match goal with
  | |- context [Rleb ?a ?b] =>
      first [rewrite (proj2 (Rleb_true a b)) by lra | rewrite (Rleb_false a b) by lra]
  end.

Lemma example_sorted : sort (nums example_column) = [1; 2; 3; 4; 5; 6; 7; 8; 9; 100].
Proof.
  change (nums example_column) with [1; 2; 3; 4; 5; 6; 7; 8; 9; 100].
  apply sort_sorted_id.
  repeat (apply Sorted_cons; [|first [apply HdRel_nil | apply HdRel_cons; lra]]).
  apply Sorted_nil.
Qed.

Lemma example_q1 : quantile (1 # 4) example_column = Num (13 / 4).
Proof.
  unfold quantile. rewrite example_sorted.
  replace (virtual_index (1 # 4) (List.length [1; 2; 3; 4; 5; 6; 7; 8; 9; 100]))
    with (2%nat, (1 # 4)%Q) by (vm_compute; reflexivity).
  cbn [List.length nth Nat.min Nat.sub]. f_equal. unfold Q2R. cbn [Qnum Qden]. lra.
Qed.

Lemma example_q3 : quantile (3 # 4) example_column = Num (31 / 4).
Proof.
  unfold quantile. rewrite example_sorted.
  replace (virtual_index (3 # 4) (List.length [1; 2; 3; 4; 5; 6; 7; 8; 9; 100]))
    with (6%nat, (3 # 4)%Q) by (vm_compute; reflexivity).
  cbn [List.length nth Nat.min Nat.sub]. f_equal. unfold Q2R. cbn [Qnum Qden]. lra.
Qed.

Lemma example_filter (b : list (string * (fv * fv))) :
  dict_get b "x"%string = Some (Num (- (7 / 2)), Num (29 / 2)) ->
  filter (all_in b ["x"%string]) (trows example_table) = removelast (trows example_table).
Proof.
  intro Hx. unfold all_in. cbn [forallb]. rewrite Hx.
  cbn [example_table trows filter removelast]. unfold in_bounds, fge, fle. cbn [rval].
  solve_rleb. reflexivity.
Qed.

(** C3. [fit] of the IQR variant keeps the factor (1.5 by default) and
    stores, for each monitored column, [lower = Q1 - factor * IQR] and
    [upper = Q3 + factor * IQR] with [IQR = Q3 - Q1], where [Q1] and [Q3] are
    the 25th and 75th percentiles of the column's values by linear
    interpolation between its order statistics (NaN bounds when the column
    has no value).  On [[1, ..., 9, 100]] with factor 1.5 this gives
    [Q1 = 3.25], [Q3 = 7.75], bounds [[-3.5, 14.5]], and [transform] then
    drops only the row holding 100. *)
Theorem fit_iqr_bounds :
  (forall (cols : list string) (fo : option R) (T : table) (est' : estimator),
     fit (OutlierIQRRemove cols fo) T = Ok est' ->
     factor est' = default (3 / 2) fo /\ columns est' = cols /\
     forall c, In c cols ->
       let xs := nums (map (fun r => rval r c) (trows T)) in
       (xs = [] -> dict_get (bounds_ est') c = Some (NaN, NaN)) /\
       (xs <> [] ->
          exists s q1 q3,
            Permutation s xs /\ Sorted Rle s /\
            interpolates s (1 # 4) q1 /\ interpolates s (3 # 4) q3 /\
            dict_get (bounds_ est') c =
            Some (Num (q1 - factor est' * (q3 - q1)), Num (q3 + factor est' * (q3 - q1))))) /\
  (exists est' Y,
     fit (OutlierIQRRemove ["x"%string] None) example_table = Ok est' /\
     quantile (1 # 4) example_column = Num (13 / 4) /\
     quantile (3 # 4) example_column = Num (31 / 4) /\
     dict_get (bounds_ est') "x"%string = Some (Num (- (7 / 2)), Num (29 / 2)) /\
     transform est' example_table = Ok Y /\
     index Y = [0; 1; 2; 3; 4; 5; 6; 7; 8]%nat /\
     forall r, In r (trows example_table) -> ~ In r (trows Y) -> rval r "x"%string = Num 100).
Proof.
  split.
  - intros cols fo T est' Hf. destruct (fit_spec _ _ _ Hf) as (_ & Hcols & Hfac & _ & Hb).
    simpl in Hcols, Hfac, Hb. split; [auto|]. split; [auto|].
    intros c Hc xs. rewrite (Hb c Hc). simpl. unfold iqr_bounds. fold xs.
    rewrite Hfac.
    destruct (quantile_spec (1 # 4) (map (fun r => rval r c) (trows T))) as [N1 P1];
      [unfold Qle; simpl; lia|].
    destruct (quantile_spec (3 # 4) (map (fun r => rval r c) (trows T))) as [N3 P3];
      [unfold Qle; simpl; lia|].
    fold xs in N1, P1, N3, P3. split.
    + intro E. rewrite (N1 E), (N3 E). reflexivity.
    + intro E. destruct (P1 E) as (v1 & -> & I1). destruct (P3 E) as (v3 & -> & I3).
      exists (sort xs), v1, v3. split; [apply sort_perm|]. split; [apply sort_sorted|].
      split; [auto|]. split; [auto|]. cbn [fsub fadd fmul]. do 3 f_equal; ring.
  - destruct (fit_complete (OutlierIQRRemove ["x"%string] None) example_table) as [est' Hf].
    { intros c [<-|[]]. reflexivity. }
    destruct (fit_spec _ _ _ Hf) as (_ & Hcols & Hfac & _ & Hb).
    assert (Hx : dict_get (bounds_ est') "x"%string = Some (Num (- (7 / 2)), Num (29 / 2))).
    { rewrite (Hb "x"%string (or_introl eq_refl)). cbn [kind_bounds ekind OutlierIQRRemove factor].
      unfold iqr_bounds. fold example_column. rewrite example_q1, example_q3.
      cbn [fsub fadd fmul default]. f_equal. f_equal; f_equal; lra. }
    pose proof (fit_transform_ok _ _ _ example_table Hf
                  ltac:(intros c [<-|[]]; reflexivity)) as Ht.
    rewrite Hcols in Ht. cbn [columns OutlierIQRRemove] in Ht.
    rewrite (example_filter _ Hx) in Ht.
    eexists _, _. split; [exact Hf|]. split; [exact example_q1|]. split; [exact example_q3|].
    split; [exact Hx|]. split; [exact Ht|]. split; [reflexivity|].
    intros r Hin Hout. cbn [example_table trows removelast] in Hin, Hout.
    destruct Hin as [<-|[<-|[<-|[<-|[<-|[<-|[<-|[<-|[<-|[<-|[]]]]]]]]]]];
      try reflexivity; exfalso; apply Hout; simpl; tauto.
Qed.

(* ------------------------------------------------------------------ *)
(** ** Frames in the store *)

Lemma alloc_old (h : heap) (t : table) (n : nat) :
  (n < hnext h)%nat -> hmem (snd (alloc h t)) n = hmem h n.
Proof. intro H. simpl. destruct (Nat.eqb_spec n (hnext h)); [lia|auto]. Qed.

Lemma alloc_new (h : heap) (t : table) : hmem (snd (alloc h t)) (fst (alloc h t)) = Some t.
Proof. simpl. rewrite Nat.eqb_refl. reflexivity. Qed.

Lemma transform_loop_h_spec (b : list (string * (fv * fv))) (cols : list string) :
  forall l h l' h' X,
    transform_loop_h b cols l h = Ok (l', h') -> hmem h l = Some X ->
    (forall n, (n < hnext h)%nat -> hmem h' n = hmem h n) /\
    (hnext h <= hnext h')%nat /\ (l' = l \/ (hnext h <= l' < hnext h')%nat) /\
    exists Y, transform_loop b cols X = Ok Y /\ hmem h' l' = Some Y.
Proof.
  induction cols as [|c cs IH]; intros l h l' h' X H HX; simpl in H.
  - inversion H; subst. repeat split; auto. exists X; auto.
  - destruct (dict_get b c) as [[lo hi]|] eqn:E; [|discriminate].
    unfold load in H. rewrite HX in H. simpl in H.
    destruct (has_col X c) eqn:Hc; [|discriminate].
    destruct (IH _ _ _ _ _ H (alloc_new h _)) as (Hold & Hnext & Hl & Y & HY & Hm).
    simpl in Hold, Hnext, Hl. repeat split.
    + intros n Hn. rewrite Hold by lia. apply alloc_old; auto.
    + lia.
    + right. lia.
    + exists Y. simpl. rewrite E, Hc. auto.
Qed.

(** C9. [fit] and [transform] leave every existing frame unchanged, the
    argument [X] included; [transform] returns a newly allocated frame,
    holding the value of [transform], so that an in-place update of the
    result leaves [X] as it was. *)
Theorem fit_transform_no_mutation (est : estimator) (l : nat) (h : heap) :
  heap_wf h ->
  (forall est' h', fit_h est l h = Ok (est', h') ->
     forall n, (n < hnext h)%nat -> hmem h' n = hmem h n) /\
  (forall l' h', transform_h est l h = Ok (l', h') ->
     (forall n, (n < hnext h)%nat -> hmem h' n = hmem h n) /\
     (hnext h <= l')%nat /\ l' <> l /\
     (forall t, hmem (write h' l' t) l = hmem h l) /\
     exists X Y, hmem h l = Some X /\ transform est X = Ok Y /\ hmem h' l' = Some Y).
Proof.
  intro Hwf. split.
  - intros est' h' H n Hn. unfold fit_h, load in H.
    destruct (hmem h l) as [X|]; [|discriminate]. simpl in H.
    destruct (subset X (columns est)); [|discriminate]. simpl in H.
    destruct (fit est X); [|discriminate]. simpl in H. inversion H; subst.
    apply alloc_old; auto.
  - intros l' h' H. unfold transform_h, load in H.
    destruct (hmem h l) as [X|] eqn:HX; [|discriminate]. simpl in H.
    assert (Hl : (l < hnext h)%nat).
    { destruct (Nat.lt_ge_cases l (hnext h)) as [|Hge]; auto. rewrite (Hwf l Hge) in HX. discriminate. }
    destruct (transform_loop_h_spec _ _ _ _ _ _ _ H (alloc_new h (copy X)))
      as (Hold & Hnext & Hl' & Y & HY & Hm).
    simpl in Hold, Hnext, Hl'.
    assert (Hfresh : (hnext h <= l')%nat) by lia.
    split; [|split; [auto|split; [lia|split]]].
    + intros n Hn. rewrite Hold by lia. apply alloc_old; auto.
    + intro t. simpl. destruct (Nat.eqb_spec l l'); [lia|].
      rewrite Hold by lia. destruct (Nat.eqb_spec l (hnext h)); [lia|auto].
    + exists X, Y. split; auto.
Qed.

(* ------------------------------------------------------------------ *)
(** ** [compare] *)

Lemma bind_ok {A B} (m : result A) (k : A -> result B) (b : B) :
  bind m k = Ok b -> exists a, m = Ok a /\ k a = Ok b.
Proof. destruct m as [a|e]; simpl; [eauto|discriminate]. Qed.

Ltac inv_bind H :=
  repeat match type of H with
  | bind ?m _ = Ok _ =>
      let a := fresh "a" in let Ea := fresh "E" in
      apply bind_ok in H; destruct H as (a & Ea & H)
  end.

Lemma take_pos_map {A B} (f : A -> B) (l : list A) (ps : list nat) (l' : list A) :
  take_pos l ps = Ok l' -> take_pos (map f l) ps = Ok (map f l').
Proof.
  revert l'; induction ps as [|p ps IH]; intros l' H; simpl in *.
  - inversion H; auto.
  - rewrite nth_error_map. destruct (nth_error l p) as [a|]; [|discriminate]. simpl in *.
    destruct (take_pos l ps) as [rest|e]; [|discriminate]. simpl in H. inversion H; subst.
    rewrite (IH rest eq_refl). reflexivity.
Qed.

Lemma take_pos_in {A} (l : list A) (ps : list nat) (l' : list A) (a : A) :
  take_pos l ps = Ok l' -> In a l' -> exists p, In p ps /\ nth_error l p = Some a.
Proof.
  revert l'; induction ps as [|p ps IH]; intros l' H Hin; simpl in *.
  - inversion H; subst; contradiction.
  - destruct (nth_error l p) as [b|] eqn:Eb; [|discriminate].
    destruct (take_pos l ps) as [rest|e] eqn:Er; [|discriminate]. simpl in H. inversion H; subst.
    destruct Hin as [<-|Hin]; [exists p; auto|].
    destruct (IH rest eq_refl Hin) as (q & Hq & Eq). exists q; auto.
Qed.

Lemma take_pos_nodup {A} (l : list A) (ps : list nat) (l' : list A) :
  NoDup l -> NoDup ps -> take_pos l ps = Ok l' -> NoDup l'.
Proof.
  intros Hl; revert l'; induction ps as [|p ps IH]; intros l' Hps H; simpl in *.
  - inversion H; constructor.
  - inversion Hps as [|? ? Hp Hps']; subst.
    destruct (nth_error l p) as [a|] eqn:Ea; [|discriminate].
    destruct (take_pos l ps) as [rest|e] eqn:Er; [|discriminate]. simpl in H. inversion H; subst.
    constructor; [|apply IH; auto].
    intro Hin. destruct (take_pos_in _ _ _ _ Er Hin) as (q & Hq & Eq).
    assert (p = q).
    { apply (proj1 (NoDup_nth_error l) Hl); [apply nth_error_Some; congruence|congruence]. }
    subst; contradiction.
Qed.

Lemma filter_key_fst (y : series) (i : nat) :
  forall x, In x (filter (fun p => Nat.eqb (fst p) i) y) -> fst x = i.
Proof. intros x Hx. apply filter_In in Hx as [_ Hx]. apply Nat.eqb_eq; auto. Qed.

Lemma filter_none {A} (p : A -> bool) (l : list A) :
  (forall x, In x l -> p x = false) -> filter p l = [].
Proof.
  induction l as [|a l IH]; simpl; intro H; auto.
  rewrite (H a (or_introl eq_refl)). apply IH. auto.
Qed.

Lemma filter_key_nodup (y : series) (i : nat) :
  NoDup (map fst y) -> (List.length (filter (fun p => Nat.eqb (fst p) i) y) <= 1)%nat.
Proof.
  induction y as [|[k v] y IH]; simpl; intro H; [lia|].
  inversion H as [|? ? Hk Hy]; subst.
  destruct (Nat.eqb_spec k i); simpl; [|auto].
  subst. replace (filter (fun p => Nat.eqb (fst p) i) y) with (@nil (nat * R)); simpl; [lia|].
  symmetry. apply filter_none.
  intros [k' v'] Hin. simpl. apply Nat.eqb_neq. intro E; subst.
  apply Hk. apply (in_map fst) in Hin. exact Hin.
Qed.

(** [y.loc[labels]] on a Series with distinct labels keeps one entry per label *)
Lemma loc_unique (y : series) (labels : list nat) (y' : series) :
  NoDup (map fst y) -> loc y labels = Ok y' -> map fst y' = labels.
Proof.
  intro Hy; revert y'; induction labels as [|i is IH]; intros y' H; simpl in H.
  - inversion H; auto.
  - destruct (filter (fun p => Nat.eqb (fst p) i) y) as [|h t] eqn:Ef; [discriminate|].
    destruct (loc y is) as [rest|e]; [|discriminate]. simpl in H. inversion H; subst.
    pose proof (filter_key_nodup y i Hy) as Hl. rewrite Ef in Hl.
    destruct t; simpl in Hl; [|lia].
    simpl. rewrite (IH rest eq_refl). f_equal.
    apply (filter_key_fst y i). rewrite Ef; simpl; auto.
Qed.









(** errors of the loop of [transform] depend only on the column labels *)
Lemma transform_loop_err_tcols (b : list (string * (fv * fv))) (cols : list string) (X X' : table) (e : err) :
  tcols X = tcols X' -> transform_loop b cols X = Err e -> transform_loop b cols X' = Err e.
Proof.
  revert X X'. induction cols as [|c cs IH]; intros X X' Ht H; simpl in *; [discriminate|].
  destruct (dict_get b c) as [[lo hi]|]; [|exact H].
  assert (Hc : has_col X' c = has_col X c) by (unfold has_col; rewrite Ht; reflexivity).
  rewrite Hc. destruct (has_col X c); [|exact H].
  eapply IH; [|exact H]. simpl. exact Ht.
Qed.




(** X. [fit] (either variant) succeeds exactly when every monitored column
    is a column of the frame; otherwise it raises a [KeyError] for a missing
    monitored column. *)
Theorem fit_key_errors (est : estimator) (T : table) :
  ((forall c, In c (columns est) -> has_col T c = true) <-> exists est', fit est T = Ok est') /\
  (forall e, fit est T = Err e -> exists c, In c (columns est) /\ has_col T c = false /\ e = KeyError c).
Proof.
  split; [split|].
  - apply fit_complete.
  - intros (est' & H). destruct (fit_spec _ _ _ H) as (_ & _ & _ & HT & _). exact HT.
  - intros e H. unfold fit in H. destruct (subset T (columns est)) eqn:Es; simpl in H; [discriminate|].
    inversion H; subst. apply subset_err_inv; auto.
Qed.

(** X. [transform] works row by row: transforming a frame whose rows are
    [r1 ++ r2] gives the same result (or the same error) as transforming the
    two chunks and concatenating their rows. *)
Theorem transform_concat (est : estimator) (cs : list string) (r1 r2 : list row) :
  transform est (mktable cs (r1 ++ r2)) =
  (Y1 <- transform est (mktable cs r1) ;;
   Y2 <- transform est (mktable cs r2) ;;
   Ok (mktable cs (trows Y1 ++ trows Y2))).
Proof.
  unfold transform, copy.
  destruct (transform_loop (bounds_ est) (columns est) (mktable cs r1)) as [Y1|e] eqn:E1; simpl.
  - pose proof (transform_loop_inv _ _ _ _ E1) as Hi. simpl in Hi.
    assert (Hi' : forall X, tcols X = cs ->
              forall c, In c (columns est) -> dict_get (bounds_ est) c <> None /\ has_col X c = true).
    { intros X HX c Hc. destruct (Hi c Hc). split; auto. unfold has_col in *. rewrite HX. auto. }
    rewrite (transform_loop_value _ _ _ _ E1).
    rewrite !transform_loop_ok by (apply Hi'; reflexivity). simpl.
    rewrite filter_app. reflexivity.
  - apply (transform_loop_err_tcols _ _ (mktable cs r1)); auto.
Qed.

(** X. Two outlier filters applied one after the other commute: if
    [transform e1] then [transform e2] succeed on [X], then [transform e2]
    then [transform e1] succeed with the same result. *)
Theorem transform_commute (e1 e2 : estimator) (X Y Z : table) :
  transform e1 X = Ok Y -> transform e2 Y = Ok Z ->
  exists Y', transform e2 X = Ok Y' /\ transform e1 Y' = Ok Z.
Proof.
  intros H1 H2.
  pose proof (transform_loop_inv _ _ _ _ H1) as I1. pose proof (transform_loop_inv _ _ _ _ H2) as I2.
  rewrite (transform_value _ _ _ H1) in H2, I2. rewrite (transform_value _ _ _ H2).
  simpl in I2 |- *. unfold transform, copy.
  rewrite transform_loop_ok by exact I2. eexists; split; [reflexivity|].
  rewrite transform_loop_ok by exact I1. simpl. rewrite !filter_filter.
  do 2 f_equal. apply filter_ext. intro r. apply andb_comm.
Qed.

Lemma sorted_perm_eq (a b : list R) : Sorted Rle a -> Sorted Rle b -> Permutation a b -> a = b.
Proof.
  intros Ha Hb. apply Sorted_StronglySorted in Ha; [|intros x y z; apply Rle_trans].
  apply Sorted_StronglySorted in Hb; [|intros x y z; apply Rle_trans].
  revert b Hb. induction Ha as [|x a Ha IH Hfa]; intros b Hb P.
  - symmetry. apply Permutation_nil, P.
  - destruct Hb as [|y b Hb Hfb].
    + apply Permutation_sym, Permutation_nil in P. discriminate.
    + assert (Hxy : x = y).
      { assert (In x (y :: b)) by (apply (Permutation_in _ P); simpl; auto).
        assert (In y (x :: a)) by (apply (Permutation_in _ (Permutation_sym P)); simpl; auto).
        rewrite Forall_forall in Hfa, Hfb.
        destruct H as [|H]; auto. destruct H0 as [|H0]; auto.
        specialize (Hfa y H0). specialize (Hfb x H). lra. }
      subst y. f_equal. apply IH; auto. apply Permutation_cons_inv with x. exact P.
Qed.

Lemma nums_perm (l l' : list fv) : Permutation l l' -> Permutation (nums l) (nums l').
Proof.
  induction 1 as [|v l l' P IH|v w l|l l' l'' P1 IH1 P2 IH2]; simpl; auto.
  - destruct v; auto.
  - destruct v, w; simpl; auto. apply perm_swap.
  - eapply perm_trans; eauto.
Qed.

Lemma sort_perm_eq (l l' : list R) : Permutation l l' -> sort l = sort l'.
Proof.
  intro P. apply sorted_perm_eq; try apply sort_sorted.
  eapply perm_trans; [apply sort_perm|]. eapply perm_trans; [exact P|].
  apply Permutation_sym, sort_perm.
Qed.

Lemma subset_err_tcols (X X' : table) (cols : list string) (e : err) :
  tcols X = tcols X' -> subset X cols = Err e -> subset X' cols = Err e.
Proof.
  intro Ht. induction cols as [|c cs IH]; simpl; [discriminate|]. unfold column.
  assert (Hc : has_col X' c = has_col X c) by (unfold has_col; rewrite Ht; reflexivity).
  rewrite Hc. destruct (has_col X c); simpl; auto.
  destruct (subset X cs) as [S|e'] eqn:Es; simpl; [discriminate|].
  intro H. inversion H; subst. rewrite IH; auto.
Qed.

(** X. [fit] of the IQR variant does not depend on the order of the rows:
    two frames with the same columns whose rows are a permutation of each
    other give the same fitted estimator (or the same error). *)
Theorem iqr_fit_row_order (cols : list string) (f : R) (b : list (string * (fv * fv))) (T T' : table) :
  tcols T = tcols T' -> Permutation (trows T) (trows T') ->
  fit (mkest IQRRemove cols f b) T = fit (mkest IQRRemove cols f b) T'.
Proof.
  intros Ht P. unfold fit. cbn [columns ekind factor].
  destruct (subset T cols) as [S|e] eqn:E.
  - destruct (subset_ok _ _ _ E) as [-> HT].
    rewrite subset_complete.
    + simpl. rewrite !map_map. f_equal. f_equal. apply map_ext. intro c. cbn.
      unfold iqr_bounds, quantile.
      rewrite (sort_perm_eq _ _ (nums_perm _ _ (Permutation_map (fun r => rval r c) P))).
      reflexivity.
    + intros c Hc. unfold has_col. rewrite <- Ht. apply HT; auto.
  - rewrite (subset_err_tcols _ _ _ _ Ht E). reflexivity.
Qed.





Section CompareProps.

Variable Model : Type.
Variable clone_model : Model -> Model.
Variable model_fit : Model -> table -> series -> result Model.
Variable model_score : Model -> table -> series -> result R.
Variable shuffle_split : nat -> R -> nat -> result (list nat * list nat).

Local Abbreviation compare_run' := (compare_run Model clone_model model_fit model_score shuffle_split).
Local Abbreviation compare' := (compare Model clone_model model_fit model_score shuffle_split).
Local Abbreviation train_test_split' := (train_test_split shuffle_split).

(** the steps of a successful run of [compare] *)
Lemma compare_run_inv (self : comparer Model) (X : table) (y : series) (ts : R) (rs : nat) (r : run) :
  compare_run' self X y ts rs = Ok r ->
  exists X_train X_test y_train y_test raw_model raw_score,
    train_test_split' X y ts rs = Ok (X_train, X_test, y_train, y_test) /\
    model_fit (clone_model (model self)) X_train y_train = Ok raw_model /\
    model_score raw_model X_test y_test = Ok raw_score /\
    run_train r = X_train /\ run_test r = X_test /\
    match preprocessor self with
    | None =>
      run_processor r = None /\ run_processed r = None /\
      run_results r = [mkresult "Raw" raw_score (len X_train) (len X_test)]
    | Some p =>
      exists processor Xtp Xsp ytp ysp processed_model processed_score,
        fit (clone p) X_train = Ok processor /\
        transform processor X_train = Ok Xtp /\ transform processor X_test = Ok Xsp /\
        loc y_train (index Xtp) = Ok ytp /\ loc y_test (index Xsp) = Ok ysp /\
        model_fit (clone_model (model self)) Xtp ytp = Ok processed_model /\
        model_score processed_model Xsp ysp = Ok processed_score /\
        run_processor r = Some processor /\ run_processed r = Some (Xtp, Xsp, ytp, ysp) /\
        run_results r = [mkresult "Raw" raw_score (len X_train) (len X_test);
                         mkresult "Processed" processed_score (len Xtp) (len Xsp)]
    end.
Proof.
  intro H. unfold compare_run in H.
  apply bind_ok in H as ([[[Xtr Xte] ytr] yte] & Es & H).
  apply bind_ok in H as (rm & Ef & H). apply bind_ok in H as (rsc & Esc & H).
  exists Xtr, Xte, ytr, yte, rm, rsc. do 3 (split; [assumption|]).
  destruct (preprocessor self) as [p|].
  - inv_bind H. inversion H; subst. simpl. split; [reflexivity|]. split; [reflexivity|].
    do 7 eexists. repeat (split; [eassumption|]). repeat split.
  - inversion H; subst. simpl. repeat split.
Qed.

(** C7. A successful [compare] stores its result frame in [results_] and
    returns it: the row ["Raw"] first, with the score of the model fitted on
    the raw training partition and the sizes of the raw partitions, then,
    exactly when a preprocessor is given, the row ["Processed"] with the
    score and the sizes of the filtered partitions the second model used. *)
Theorem compare_result_rows (self : comparer Model) (X : table) (y : series)
    (ts : option R) (rs : option nat) (res : list result_row) (self' : comparer Model) :
  compare' self X y ts rs = Ok (res, self') ->
  results_ self' = Some res /\
  exists X_train X_test y_train y_test raw_model raw_score,
    train_test_split' X y (default (2 / 10) ts) (default 42%nat rs) =
      Ok (X_train, X_test, y_train, y_test) /\
    model_fit (clone_model (model self)) X_train y_train = Ok raw_model /\
    model_score raw_model X_test y_test = Ok raw_score /\
    match preprocessor self with
    | None => res = [mkresult "Raw" raw_score (len X_train) (len X_test)]
    | Some p =>
      exists processor Xtp Xsp ytp ysp processed_model processed_score,
        fit (clone p) X_train = Ok processor /\
        transform processor X_train = Ok Xtp /\ transform processor X_test = Ok Xsp /\
        loc y_train (index Xtp) = Ok ytp /\ loc y_test (index Xsp) = Ok ysp /\
        model_fit (clone_model (model self)) Xtp ytp = Ok processed_model /\
        model_score processed_model Xsp ysp = Ok processed_score /\
        res = [mkresult "Raw" raw_score (len X_train) (len X_test);
               mkresult "Processed" processed_score (len Xtp) (len Xsp)]
    end.
Proof.
  intro H. unfold compare in H. apply bind_ok in H as (r & Er & H). inversion H; subst; clear H.
  split; [reflexivity|].
  destruct (compare_run_inv _ _ _ _ _ _ Er)
    as (Xtr & Xte & ytr & yte & rm & rsc & Es & Ef & Esc & ? & ? & Hp).
  exists Xtr, Xte, ytr, yte, rm, rsc. do 3 (split; [assumption|]).
  destruct (preprocessor self) as [p|].
  - destruct Hp as (proc & Xtp & Xsp & ytp & ysp & pm & ps & H1 & H2 & H3 & H4 & H5 & H6 & H7 & _ & _ & H8).
    exists proc, Xtp, Xsp, ytp, ysp, pm, ps. repeat (split; [assumption|]). exact H8.
  - apply Hp.
Qed.

(** C4. Inside [compare] the preprocessor is fitted on the training
    partition alone: two successful runs (of any frames, labels, split
    parameters) with the same training partition hold the same fitted
    preprocessor, hence the same [bounds_]. *)
Theorem compare_bounds_from_train_only (self : comparer Model)
    (X X' : table) (y y' : series) (ts ts' : R) (rs rs' : nat) (r r' : run) :
  compare_run' self X y ts rs = Ok r ->
  compare_run' self X' y' ts' rs' = Ok r' ->
  run_train r = run_train r' ->
  run_processor r = run_processor r' /\
  option_map bounds_ (run_processor r) = option_map bounds_ (run_processor r').
Proof.
  intros H H' Et.
  destruct (compare_run_inv _ _ _ _ _ _ H) as (Xtr & ? & ? & ? & ? & ? & ? & ? & ? & Htr & ? & Hp).
  destruct (compare_run_inv _ _ _ _ _ _ H') as (Xtr' & ? & ? & ? & ? & ? & ? & ? & ? & Htr' & ? & Hp').
  assert (E : Xtr = Xtr') by congruence. subst Xtr'.
  assert (Hproc : run_processor r = run_processor r').
  { destruct (preprocessor self) as [p|].
    - destruct Hp as (proc & _ & _ & _ & _ & _ & _ & F & _ & _ & _ & _ & _ & _ & P & _).
      destruct Hp' as (proc' & _ & _ & _ & _ & _ & _ & F' & _ & _ & _ & _ & _ & _ & P' & _).
      rewrite P, P'. congruence.
    - destruct Hp as (P & _), Hp' as (P' & _). congruence. }
  split; [exact Hproc|]. rewrite Hproc. reflexivity.
Qed.

(** the split keeps each row with its label *)
Lemma train_test_split_aligned (X : table) (y : series) (ts : R) (rs : nat)
    (X_train X_test : table) (y_train y_test : series) :
  (forall n ts' rs' tr te, shuffle_split n ts' rs' = Ok (tr, te) -> NoDup tr /\ NoDup te) ->
  NoDup (index X) -> map fst y = index X ->
  train_test_split' X y ts rs = Ok (X_train, X_test, y_train, y_test) ->
  map fst y_train = index X_train /\ NoDup (index X_train) /\
  map fst y_test = index X_test /\ NoDup (index X_test).
Proof.
  intros Hsplit Hnd Hy H. unfold train_test_split in H.
  destruct (negb (Nat.eqb (len X) (List.length y))); [discriminate|].
  apply bind_ok in H as ([tr te] & Es & H). inv_bind H. inversion H; subst; clear H.
  destruct (Hsplit _ _ _ _ _ Es) as [Ntr Nte].
  unfold index in *; simpl.
  pose proof (take_pos_map rid _ _ _ E) as R1. pose proof (take_pos_map rid _ _ _ E0) as R2.
  pose proof (take_pos_map fst _ _ _ E1) as R3. pose proof (take_pos_map fst _ _ _ E2) as R4.
  rewrite Hy in R3, R4. rewrite R1 in R3. rewrite R2 in R4.
  inversion R3 as [R3']. inversion R4 as [R4'].
  split; [congruence|]. split; [exact (take_pos_nodup _ _ _ Hnd Ntr R1)|].
  split; [congruence|]. exact (take_pos_nodup _ _ _ Hnd Nte R2).
Qed.

Lemma aligned_after_filter (Xt Xp : table) (yt yp : series) (processor : estimator) :
  map fst yt = index Xt -> NoDup (index Xt) ->
  transform processor Xt = Ok Xp -> loc yt (index Xp) = Ok yp ->
  len Xp = List.length yp /\ map fst yp = index Xp /\
  forall i, In i (index Xp) -> exists v, In (i, v) yp.
Proof.
  intros Hy Hnd Ht Hl.
  assert (E : map fst yp = index Xp) by (eapply loc_unique; eauto; rewrite Hy; auto).
  split; [|split; [exact E|]].
  - unfold len. rewrite <- (length_map rid), <- (length_map fst yp). fold (index Xp). rewrite E. reflexivity.
  - intros i Hi. rewrite <- E in Hi. apply in_map_iff in Hi as ([i' v] & Ei & Hin).
    simpl in Ei; subst. exists v; auto.
Qed.

(** C6. When the frame's index labels are distinct and [y] carries the same
    labels in the same order (and the split draws distinct positions), in a
    successful run the re-aligned labels of each filtered partition have one
    entry per surviving row, in the row order, so the lengths agree and
    every surviving index label has its entry. *)
Theorem compare_labels_aligned (self : comparer Model) (X : table) (y : series)
    (ts : R) (rs : nat) (r : run) :
  (forall n ts' rs' tr te, shuffle_split n ts' rs' = Ok (tr, te) -> NoDup tr /\ NoDup te) ->
  NoDup (index X) -> map fst y = index X ->
  compare_run' self X y ts rs = Ok r ->
  forall Xtp Xsp ytp ysp, run_processed r = Some (Xtp, Xsp, ytp, ysp) ->
    len Xtp = List.length ytp /\ len Xsp = List.length ysp /\
    map fst ytp = index Xtp /\ map fst ysp = index Xsp /\
    (forall i, In i (index Xtp) -> exists v, In (i, v) ytp) /\
    (forall i, In i (index Xsp) -> exists v, In (i, v) ysp).
Proof.
  intros Hsplit Hnd Hy H Xtp Xsp ytp ysp Hr.
  destruct (compare_run_inv _ _ _ _ _ _ H)
    as (Xtr & Xte & ytr & yte & ? & ? & Es & ? & ? & ? & ? & Hp).
  destruct (train_test_split_aligned _ _ _ _ _ _ _ _ Hsplit Hnd Hy Es) as (A1 & N1 & A2 & N2).
  destruct (preprocessor self) as [p|].
  - destruct Hp as (proc & Xtp' & Xsp' & ytp' & ysp' & ? & ? & ? & T1 & T2 & L1 & L2 & ? & ? & ? & P & ?).
    rewrite P in Hr. inversion Hr; subst.
    destruct (aligned_after_filter _ _ _ _ _ A1 N1 T1 L1) as (B1 & C1 & D1).
    destruct (aligned_after_filter _ _ _ _ _ A2 N2 T2 L2) as (B2 & C2 & D2).
    repeat split; auto.
  - destruct Hp as (_ & P & _). congruence.
Qed.

Lemma transform_len (est : estimator) (X Y : table) :
  transform est X = Ok Y -> (len Y <= len X)%nat.
Proof.
  intro H. rewrite (transform_value _ _ _ H). unfold len; simpl. apply filter_length_le.
Qed.

(** X. In a successful [compare] with a preprocessor, the ["Processed"] row
    never counts more training or test samples than the ["Raw"] row. *)
Theorem compare_processed_counts (self : comparer Model) (X : table) (y : series)
    (ts : option R) (rs : option nat) (res : list result_row) (self' : comparer Model) :
  compare' self X y ts rs = Ok (res, self') ->
  forall raw proc, res = [raw; proc] ->
    (Train_Samples proc <= Train_Samples raw)%nat /\ (Test_Samples proc <= Test_Samples raw)%nat.
Proof.
  intro H. unfold compare in H. apply bind_ok in H as (r & Er & H).
  inversion H; subst; clear H. intros raw proc E.
  destruct (compare_run_inv _ _ _ _ _ _ Er)
    as (Xtr & Xte & ytr & yte & rm & rsc & Es & Ef & Esc & Etr & Ete & Hp).
  destruct (preprocessor self) as [p|].
  - destruct Hp as (proc' & Xtp & Xsp & ytp & ysp & pm & ps & F1 & F2 & F3 & _ & _ & _ & _ & _ & _ & H8).
    rewrite H8 in E. inversion E; subst; clear E. simpl.
    split; eapply transform_len; eauto.
  - destruct Hp as (_ & _ & H8). rewrite H8 in E. discriminate.
Qed.

End CompareProps.

Lemma transform_filters_within_bounds_witness :
  fit (OutlierIQRRemove ["x"%string] None) example_table = Ok example_fitted /\
  NoDup (columns (OutlierIQRRemove ["x"%string] None)) /\
  (forall c, In c (columns (OutlierIQRRemove ["x"%string] None)) -> has_col example_table c = true) /\
  exists Y, transform example_fitted example_table = Ok Y /\
    tcols Y = tcols example_table /\
    (exists keep, trows Y = filter keep (trows example_table) /\
       forall r, keep r = true <->
         forall c, In c (columns example_fitted) ->
           exists bnd, dict_get (bounds_ example_fitted) c = Some bnd /\ lies_within bnd (rval r c)) /\
    (forall r, In r (trows example_table) -> ~ In r (trows Y) ->
       exists c, In c (columns example_fitted) /\
         forall bnd, dict_get (bounds_ example_fitted) c = Some bnd -> ~ lies_within bnd (rval r c)) /\
    (forall cols', Permutation (columns example_fitted) cols' ->
       transform (mkest (ekind example_fitted) cols' (factor example_fitted) (bounds_ example_fitted))
         example_table = Ok Y).
Proof.
  assert (Hf : fit (OutlierIQRRemove ["x"%string] None) example_table = Ok example_fitted)
    by reflexivity.
  assert (HX : forall c, In c (columns (OutlierIQRRemove ["x"%string] None)) ->
                 has_col example_table c = true)
    by (intros c [<-|[]]; reflexivity).
  assert (Hd : NoDup (columns (OutlierIQRRemove ["x"%string] None)))
    by (constructor; [intros []|constructor]).
  split; [exact Hf|]. split; [exact Hd|]. split; [exact HX|].
  exact (transform_filters_within_bounds _ _ _ _ Hf Hd HX).
Defined.

Lemma small_transform : transform small_est small_table = Ok small_kept.
Proof.
  unfold transform, copy, small_est, small_table, small_kept. cbn [transform_loop bounds_ columns dict_get].
  cbn [String.eqb Ascii.eqb Bool.eqb has_col tcols existsb].
  unfold select, in_bounds, fge, fle. cbn [trows filter rval andb].
  solve_rleb. reflexivity.
Qed.

Lemma transform_idempotent_witness :
  transform small_est small_table = Ok small_kept /\ transform small_est small_kept = Ok small_kept.
Proof.
  split; [exact small_transform|]. exact (transform_idempotent _ _ _ small_transform).
Defined.

Lemma fit_transform_no_mutation_witness :
  heap_wf small_heap /\
  (forall est' h', fit_h small_est 0 small_heap = Ok (est', h') ->
     forall n, (n < hnext small_heap)%nat -> hmem h' n = hmem small_heap n) /\
  (forall l' h', transform_h small_est 0 small_heap = Ok (l', h') ->
     (forall n, (n < hnext small_heap)%nat -> hmem h' n = hmem small_heap n) /\
     (hnext small_heap <= l')%nat /\ l' <> 0%nat /\
     (forall t, hmem (write h' l' t) 0 = hmem small_heap 0) /\
     exists X Y, hmem small_heap 0 = Some X /\ transform small_est X = Ok Y /\ hmem h' l' = Some Y).
Proof.
  assert (Hwf : heap_wf small_heap).
  { intros [|n] Hn; [cbn in Hn; lia | reflexivity]. }
  split; [exact Hwf|]. exact (fit_transform_no_mutation small_est 0 small_heap Hwf).
Defined.

Lemma compare_result_rows_witness :
  compare unit wt_clone wt_fit wt_score wt_split wt_keep (wt_frame 5) wt_labels None None =
    Ok (wt_keep_results, mkcomparer tt (Some (OutlierStdRemove [] None)) (Some wt_keep_results)) /\
  results_ (mkcomparer tt (Some (OutlierStdRemove [] None)) (Some wt_keep_results)) =
    Some wt_keep_results /\
  exists X_train X_test y_train y_test raw_model raw_score,
    train_test_split wt_split (wt_frame 5) wt_labels (default (2 / 10) None) (default 42%nat None) =
      Ok (X_train, X_test, y_train, y_test) /\
    wt_fit (wt_clone (model wt_keep)) X_train y_train = Ok raw_model /\
    wt_score raw_model X_test y_test = Ok raw_score /\
    match preprocessor wt_keep with
    | None => wt_keep_results = [mkresult "Raw" raw_score (len X_train) (len X_test)]
    | Some p =>
      exists processor Xtp Xsp ytp ysp processed_model processed_score,
        fit (clone p) X_train = Ok processor /\
        transform processor X_train = Ok Xtp /\ transform processor X_test = Ok Xsp /\
        loc y_train (index Xtp) = Ok ytp /\ loc y_test (index Xsp) = Ok ysp /\
        wt_fit (wt_clone (model wt_keep)) Xtp ytp = Ok processed_model /\
        wt_score processed_model Xsp ysp = Ok processed_score /\
        wt_keep_results = [mkresult "Raw" raw_score (len X_train) (len X_test);
               mkresult "Processed" processed_score (len Xtp) (len Xsp)]
    end.
Proof.
  assert (H : compare unit wt_clone wt_fit wt_score wt_split wt_keep (wt_frame 5) wt_labels None None =
    Ok (wt_keep_results, mkcomparer tt (Some (OutlierStdRemove [] None)) (Some wt_keep_results)))
    by reflexivity.
  split; [exact H|]. exact (compare_result_rows _ _ _ _ _ _ _ _ _ _ _ _ H).
Defined.

Lemma compare_bounds_from_train_only_witness :
  compare_run unit wt_clone wt_fit wt_score wt_split1 wt_std (wt_frame 5) wt_labels (2 / 10) 42
    = Ok (wt_std_run 5) /\
  compare_run unit wt_clone wt_fit wt_score wt_split1 wt_std (wt_frame 1000) wt_labels (2 / 10) 42
    = Ok (wt_std_run 1000) /\
  run_train (wt_std_run 5) = run_train (wt_std_run 1000) /\
  run_processor (wt_std_run 5) = run_processor (wt_std_run 1000) /\
  option_map bounds_ (run_processor (wt_std_run 5)) = option_map bounds_ (run_processor (wt_std_run 1000)).
Proof.
  assert (H : compare_run unit wt_clone wt_fit wt_score wt_split1 wt_std (wt_frame 5) wt_labels (2 / 10) 42
                = Ok (wt_std_run 5)) by reflexivity.
  assert (H' : compare_run unit wt_clone wt_fit wt_score wt_split1 wt_std (wt_frame 1000) wt_labels (2 / 10) 42
                 = Ok (wt_std_run 1000)) by reflexivity.
  assert (Et : run_train (wt_std_run 5) = run_train (wt_std_run 1000)) by reflexivity.
  split; [exact H|]. split; [exact H'|]. split; [exact Et|].
  exact (compare_bounds_from_train_only _ _ _ _ _ _ _ _ _ _ _ _ _ _ _ _ H H' Et).
Defined.

Lemma compare_labels_aligned_witness :
  (forall n ts' rs' tr te, wt_split n ts' rs' = Ok (tr, te) -> NoDup tr /\ NoDup te) /\
  NoDup (index (wt_frame 5)) /\ map fst wt_labels = index (wt_frame 5) /\
  compare_run unit wt_clone wt_fit wt_score wt_split wt_keep (wt_frame 5) wt_labels (2 / 10) 42
    = Ok wt_keep_run /\
  run_processed wt_keep_run =
    Some (wt_keep_train, wt_keep_test, [(12%nat, 0); (10%nat, 0)], [(11%nat, 1)]) /\
  len wt_keep_train = List.length [(12%nat, 0); (10%nat, 0)] /\
  len wt_keep_test = List.length [(11%nat, 1)] /\
  map fst [(12%nat, 0); (10%nat, 0)] = index wt_keep_train /\
  map fst [(11%nat, 1)] = index wt_keep_test /\
  (forall i, In i (index wt_keep_train) -> exists v, In (i, v) [(12%nat, 0); (10%nat, 0)]) /\
  (forall i, In i (index wt_keep_test) -> exists v, In (i, v) [(11%nat, 1)]).
Proof.
  assert (Hs : forall n ts' rs' tr te, wt_split n ts' rs' = Ok (tr, te) -> NoDup tr /\ NoDup te).
  { intros n ts' rs' tr te H. inversion H; subst.
    split; repeat constructor; simpl; intuition discriminate. }
  assert (Hnd : NoDup (index (wt_frame 5))).
  { cbn. repeat constructor; simpl; intuition discriminate. }
  assert (Hy : map fst wt_labels = index (wt_frame 5)) by reflexivity.
  assert (H : compare_run unit wt_clone wt_fit wt_score wt_split wt_keep (wt_frame 5) wt_labels (2 / 10) 42
                = Ok wt_keep_run) by reflexivity.
  assert (Hr : run_processed wt_keep_run =
    Some (wt_keep_train, wt_keep_test, [(12%nat, 0); (10%nat, 0)], [(11%nat, 1)])) by reflexivity.
  do 5 (split; [assumption|]).
  exact (compare_labels_aligned _ _ _ _ _ _ _ _ _ _ _ Hs Hnd Hy H _ _ _ _ Hr).
Defined.

Lemma small_transform2 : transform small_est2 small_kept = Ok small_kept.
Proof.
  unfold transform, copy, small_est2, small_kept. cbn [transform_loop bounds_ columns dict_get].
  cbn [String.eqb Ascii.eqb Bool.eqb has_col tcols existsb].
  unfold select, in_bounds, fge, fle. cbn [trows filter rval andb].
  solve_rleb. reflexivity.
Qed.



Lemma transform_commute_witness :
  transform small_est small_table = Ok small_kept /\ transform small_est2 small_kept = Ok small_kept /\
  exists Y', transform small_est2 small_table = Ok Y' /\ transform small_est Y' = Ok small_kept.
Proof.
  split; [exact small_transform|]. split; [exact small_transform2|].
  exact (transform_commute _ _ _ _ _ small_transform small_transform2).
Defined.

Lemma iqr_fit_row_order_witness :
  tcols example_table = tcols example_table_rev /\
  Permutation (trows example_table) (trows example_table_rev) /\
  fit (mkest IQRRemove ["x"%string] (3 / 2) []) example_table =
    fit (mkest IQRRemove ["x"%string] (3 / 2) []) example_table_rev.
Proof.
  assert (Ht : tcols example_table = tcols example_table_rev) by reflexivity.
  assert (P : Permutation (trows example_table) (trows example_table_rev))
    by apply Permutation_rev.
  split; [exact Ht|]. split; [exact P|].
  exact (iqr_fit_row_order _ _ _ _ _ Ht P).
Defined.


Lemma compare_processed_counts_witness :
  compare unit wt_clone wt_fit wt_score wt_split1 wt_std (wt_frame 5) wt_labels None None =
    Ok (run_results (wt_std_run 5), mkcomparer tt (Some (OutlierStdRemove ["a"%string] None))
                                      (Some (run_results (wt_std_run 5)))) /\
  (0 <= 1)%nat /\ (0 <= 2)%nat.
Proof.
  assert (H : compare unit wt_clone wt_fit wt_score wt_split1 wt_std (wt_frame 5) wt_labels None None =
    Ok (run_results (wt_std_run 5), mkcomparer tt (Some (OutlierStdRemove ["a"%string] None))
                                      (Some (run_results (wt_std_run 5))))) by reflexivity.
  split; [exact H|].
  exact (compare_processed_counts _ _ _ _ _ _ _ _ _ _ _ _ H
           (mkresult "Raw" (INR 2) 1 2) (mkresult "Processed" (INR 0) 0 0) eq_refl).
Defined.
